(** * Yeelight bulb Homebridge plugin: discovery, reconciliation and the
      TCP control channel.

    Shallow embedding of [src/unnamed/part_000] (platform: [parseScript],
    [discoverDevices]) and [src/src/platformAccessory.ts] ([setOn],
    [getOn]).

    Strings are Stdlib strings; a character stands for one code unit of
    the decoded text, read as a Latin-1 code point.  A JS object used as a
    string map is a [gmap string string]; the assignment [data[key] = v]
    goes through [obj_set], which writes out the one key the JS object
    literal treats differently ("__proto__", an accessor inherited from
    [Object.prototype] whose setter ignores string values). *)

From Stdlib Require Import String Ascii.
From stdpp Require Import base gmap strings list.

Open Scope string_scope.
Set Warnings "-register-all,-abstract-large-number".

(* ------------------------------------------------------------------ *)
(** ** JS string primitives *)

(** [String.prototype.trim]: white space of the Latin-1 range
    (TAB, LF, VT, FF, CR, SPACE, NBSP). *)
Definition js_is_space (c : ascii) : bool :=
  let n := nat_of_ascii c in
  (((9 <=? n) && (n <=? 13)) || (n =? 32) || (n =? 160))%nat.

Fixpoint drop_space (l : list ascii) : list ascii :=
  match l with
  | [] => []
  | c :: l' => if js_is_space c then drop_space l' else l
  end.

Definition js_trim (s : string) : string :=
  string_of_list_ascii
    (rev (drop_space (rev (drop_space (list_ascii_of_string s))))).

(** [String.prototype.toLowerCase] on Latin-1: A-Z and the accented
    capitals 0xC0-0xDE except the multiplication sign 0xD7. *)
Definition js_lower_char (c : ascii) : ascii :=
  let n := nat_of_ascii c in
  if (((65 <=? n) && (n <=? 90)) || ((192 <=? n) && (n <=? 222) && negb (n =? 215)))%nat
  then ascii_of_nat (n + 32)%nat else c.

Definition js_toLowerCase (s : string) : string :=
  string_of_list_ascii (map js_lower_char (list_ascii_of_string s)).

(** [String.prototype.split(sep)] for a non-empty separator: leftmost
    non-overlapping matches, the pieces between them, in order.  The
    fuel is the length of the text; each step consumes a character. *)
Fixpoint js_split_fuel (sep : string) (fuel : nat) (s : string) : list string :=
  match fuel with
  | O => [s]
  | S f =>
      match s with
      | EmptyString => [EmptyString]
      | String a s' =>
          if String.prefix sep s
          then EmptyString :: js_split_fuel sep f (String.substring (String.length sep) (String.length s) s)
          else match js_split_fuel sep f s' with
               | [] => [String a EmptyString]
               | w :: ws => String a w :: ws
               end
      end
  end.

Definition js_split (sep s : string) : list string :=
  js_split_fuel sep (String.length s) s.

(** [s.indexOf(c)]: [None] stands for -1. *)
Definition js_indexOf (c s : string) : option nat := String.index 0 c s.

(** [s.slice(i)] and [s.slice(0, i)]. *)
Definition js_slice_from (i : nat) (s : string) : string :=
  String.substring i (String.length s - i)%nat s.
Definition js_slice_to (i : nat) (s : string) : string := String.substring 0 i s.

(* ------------------------------------------------------------------ *)
(** ** JS objects used as string maps *)

(** [o[k] = v] on an object created by the literal [{}]. *)
Definition obj_set (k v : string) (o : gmap string string) : gmap string string :=
  if String.eqb k "__proto__" then o else <[k:=v]> o.

(** [o[k]] for the keys read by the code ([id], [model], [location]):
    none of them is inherited from [Object.prototype], so a missing own
    property reads as [undefined], here [None]. *)
Definition obj_get (o : gmap string string) (k : string) : option string := o !! k.

(* ------------------------------------------------------------------ *)
(** ** [parseScript] (part_000, lines 76-90) *)

Definition parse_line (data : gmap string string) (line : string) : gmap string string :=
  match js_indexOf ":" line with
  | Some separatorIndex =>
      let key := js_toLowerCase (js_trim (js_slice_to separatorIndex line)) in
      let value := js_trim (js_slice_from (S separatorIndex) line) in
      obj_set key value data
  | None => data
  end.

Definition parseScript (script : string) : gmap string string :=
  fold_left parse_line (js_split (String "010"%char EmptyString) script) ∅.


(* ------------------------------------------------------------------ *)
(** ** Errors raised by the code or the runtime it calls *)

Inductive js_error :=
  | TypeError_split_undefined      (* [undefined.split(...)] *)
  | TypeError_property_of_null     (* [null.result] *)
  | SyntaxError_JSON               (* [JSON.parse] on a non-JSON text *)
  | ConnectArgError                (* [net.Socket.connect], synchronous argument check:
                                      ERR_MISSING_ARGS or ERR_SOCKET_BAD_PORT *)
  | UuidError                      (* [hap.uuid.generate] rejecting its argument *)
  | AssertionError_displayName     (* [new Accessory(displayName, uuid)] with no or an
                                      empty displayName *)
  | Error_duplicate_UUID (uuid : string)
                                   (* [registerPlatformAccessories] of a UUID the bridge
                                      already holds *)
  | ERR_SOCKET_DGRAM_NOT_RUNNING   (* [dgram.Socket.close] on a closed socket *)
  | SocketError (code : string).   (* an ['error'] event of a socket, or a system
                                      error thrown by a socket call *)

(* ------------------------------------------------------------------ *)
(** ** Discovery: the ['close'] handler (part_000, lines 107-156) *)

(** A cached accessory restored by Homebridge ([this.accessories]).  Its
    [context.device] is the record stored by the [Create] branch of an
    earlier run, so the handler built for it reads fields of an object. *)
Record PlatformAccessory := {
  acc_UUID : string;
  acc_displayName : string
}.

(** What one iteration of the loop does with the host, when it completes:
    [Restore ex]: [new YeelightBulbPlatformAccessory(this, existingAccessory)];
    [Create model uuid device]: [new this.api.platformAccessory(device.model, uuid)],
    [accessory.context.device = device], handler, and
    [registerPlatformAccessories].  The handler's characteristic writes
    are taken not to throw (HAP reports invalid values as warnings). *)
Inductive action :=
  | Restore (existing : PlatformAccessory)
  | Create (model : option string) (uuid : string) (device : gmap string string).

Section Discovery.

(** [this.api.hap.uuid.generate], supplied by the host: [None] when it
    throws on its argument. *)
Variable uuid_generate : option string -> option string.

(** [this.accessories]: filled by [configureAccessory] before discovery;
    [discoverDevices] never adds to it. *)
Variable accessories : list PlatformAccessory.

(** The UUIDs of the accessories on the Homebridge bridge when the
    ['close'] handler starts: the restored cached accessories and those of
    the other plugins of the bridge. *)
Variable bridged : list string.

Definition find_existing (uuid : string) : option PlatformAccessory :=
  List.find (fun a => String.eqb (acc_UUID a) uuid) accessories.

(** [new this.api.platformAccessory(device.model, uuid)]: hap-nodejs
    asserts a non-empty displayName ([undefined] or [''] throw). *)
Definition display_name_ok (model : option string) : bool :=
  match model with
  | None => false
  | Some m => negb (String.eqb m EmptyString)
  end.

(** [for (const device of devices) { ... }] on a bridge holding [on_bridge]:
    the actions performed, and the exception that ends the loop early, if
    any.  [registerPlatformAccessories] adds the new UUID to the bridge,
    and throws (hap-nodejs [addBridgedAccessory]) on a UUID it already holds. *)
Fixpoint close_loop_from (on_bridge : list string) (devices : list (gmap string string))
  : list action * option js_error :=
  match devices with
  | [] => ([], None)
  | device :: rest =>
      match uuid_generate (obj_get device "id") with
      | None => ([], Some UuidError)
      | Some uuid =>
          match find_existing uuid with
          | Some existingAccessory =>
              let '(acts, err) := close_loop_from on_bridge rest in
              (Restore existingAccessory :: acts, err)
          | None =>
              if negb (display_name_ok (obj_get device "model")) then
                ([], Some AssertionError_displayName)
              else if existsb (String.eqb uuid) on_bridge then
                ([], Some (Error_duplicate_UUID uuid))
              else
                let '(acts, err) := close_loop_from (uuid :: on_bridge) rest in
                (Create (obj_get device "model") uuid device :: acts, err)
          end
      end
  end.

Definition close_loop (devices : list (gmap string string)) : list action * option js_error :=
  close_loop_from bridged devices.

(** Events delivered to the UDP socket of one [discoverDevices] call, in
    order: ['listening'] whose handler's calls [setBroadcast],
    [setMulticastTTL] and [addMembership] return (the probe is sent, its
    outcome logged), ['listening'] where one of these calls throws (e.g.
    [addMembership] with no multicast route), ['message'], ['error'], and
    the 1000 ms timer of line 163. *)
Inductive dgram_event :=
  | DListening (send_ok : bool)
  | DMessage (text : string)
  | DError (code : string)
  | DTimer
  | DListenThrow (code : string).

(** [uncaught]: the exceptions thrown into the event loop, in order.  In
    Node the first of them ends the process; the model keeps stepping, so
    a trace describes the run of the program up to that first one. *)
Record disc_state := {
  devices : list (gmap string string);
  sock_open : bool;
  performed : list action;
  uncaught : list js_error
}.

Definition disc_init : disc_state :=
  {| devices := []; sock_open := true; performed := []; uncaught := [] |}.

(** [socket.close()]: on an open socket it stops reception and the
    ['close'] handler runs over the collected devices; on a closed one
    [close] throws. *)
Definition socket_close (st : disc_state) : disc_state :=
  if sock_open st then
    let '(acts, err) := close_loop (devices st) in
    {| devices := devices st; sock_open := false;
       performed := performed st ++ acts;
       uncaught := uncaught st ++ option_list err |}
  else
    {| devices := devices st; sock_open := false; performed := performed st;
       uncaught := uncaught st ++ [ERR_SOCKET_DGRAM_NOT_RUNNING] |}.

Definition disc_step (st : disc_state) (ev : dgram_event) : disc_state :=
  match ev with
  | DListening _ => st
  | DListenThrow code =>
      (* thrown out of the 'listening' handler, before [send]; a closed
         socket emits no 'listening' *)
      if sock_open st then
        {| devices := devices st; sock_open := true; performed := performed st;
           uncaught := uncaught st ++ [SocketError code] |}
      else st
  | DMessage text =>
      if sock_open st then
        {| devices := devices st ++ [parseScript text]; sock_open := true;
           performed := performed st; uncaught := uncaught st |}
      else st
  | DError _ => if sock_open st then socket_close st else st
  | DTimer => socket_close st
  end.

Definition discoverDevices (trace : list dgram_event) : disc_state :=
  fold_left disc_step trace disc_init.

End Discovery.

(** Stand-in for [hap.uuid.generate] used in concrete runs: deterministic
    in the id, and throwing on [undefined] as hap-nodejs does (it hashes
    its argument with [crypto.createHash("sha1").update]). *)
Definition hap_uuid (id : option string) : option string :=
  match id with
  | Some s => Some ("uuid:" ++ s)
  | None => None
  end.

Definition crlf : string := String "013"%char (String "010"%char EmptyString).


(* ------------------------------------------------------------------ *)
(** ** Control channel (platformAccessory.ts, [setOn] and [getOn]) *)

(** Values produced by [JSON.parse]. *)
Inductive jvalue :=
  | JNull
  | JBool (b : bool)
  | JNum (n : Z)
  | JStr (s : string)
  | JArr (l : list jvalue)
  | JObj (members : list (string * jvalue)).

(** Code that may throw. *)
Inductive exec (A : Type) :=
  | Ret (a : A)
  | Throw (e : js_error).
Arguments Ret {A} a.
Arguments Throw {A} e.

(** [o[k]] on a parsed object: [JSON.parse] keeps the last of duplicated
    members. *)
Definition member (members : list (string * jvalue)) (k : string) : option jvalue :=
  fold_left (fun acc kv => if String.eqb kv.1 k then Some kv.2 else acc) members None.

(** [response.result]; [None] is [undefined]. *)
Definition read_result (response : jvalue) : exec (option jvalue) :=
  match response with
  | JNull => Throw TypeError_property_of_null
  | JObj members => Ret (member members "result")
  | _ => Ret None
  end.

(** JS truthiness of a JSON value ([undefined] included). *)
Definition truthy (v : option jvalue) : bool :=
  match v with
  | None | Some JNull => false
  | Some (JBool b) => b
  | Some (JNum n) => negb (Z.eqb n 0)
  | Some (JStr s) => negb (String.eqb s "")
  | Some (JArr _) | Some (JObj _) => true
  end.

(** [r[0]] on a truthy [r]. *)
Definition index0 (r : jvalue) : option jvalue :=
  match r with
  | JArr (x :: _) => Some x
  | JStr (String c _) => Some (JStr (String c EmptyString))
  | JObj members => member members "0"
  | _ => None
  end.

(** [response.result[0] === 'on'] *)
Definition is_on (r : jvalue) : bool :=
  match index0 r with
  | Some (JStr s) => String.eqb s "on"
  | _ => false
  end.

(** Operations on the [net.Socket] of one call. *)
Inductive sock_op :=
  | SockCreate                                   (* new net.Socket() *)
  | SockConnect (port : option string) (host : string)
  | SockWrite (payload : string)
  | SockDestroy.

(** Events of the socket, with their time in ms from the call. *)
Inductive tcp_event :=
  | TConnect                (* connection established: the connect callback *)
  | TData (chunk : string)  (* a ['data'] event, [data.toString()] *)
  | TError (code : string)  (* an ['error'] event *)
  | TClose.                 (* a ['close'] event *)

Inductive js_value := VUndefined | VBool (b : bool).

(** Settlement of the promise returned by an [async] method; [Unsettled]:
    the process ended, on an uncaught exception, before it settled. *)
Inductive outcome :=
  | Fulfilled (v : js_value)
  | Rejected (e : js_error)
  | Unsettled.

(** One call: the settlement of its promise, the socket operations, and
    the uncaught exception that ended the process, if any (then no later
    event is handled). *)
Record run := {
  result : outcome;
  ops : list sock_op;
  uncaught_errors : list js_error
}.

Definition dq : string := String "034"%char EmptyString.
Definition quoted (s : string) : string := dq ++ s ++ dq.

(** [location.split('//')[1].split(':')[0]] and [[1]]: lines 102-103 and
    134-135; [undefined.split] throws. *)
Definition split_location (location : option string) : exec (string * option string) :=
  match location with
  | None => Throw TypeError_split_undefined
  | Some loc =>
      match nth_error (js_split "//" loc) 1 with
      | None => Throw TypeError_split_undefined
      | Some rest =>
          let parts := js_split ":" rest in
          Ret (nth 0 parts EmptyString, nth_error parts 1)
      end
  end.

Section Control.

(** [JSON.parse]: [None] when it throws a [SyntaxError]. *)
Variable JSON_parse : string -> option jvalue.

(** The synchronous argument check of [net.Socket.connect(port, host, cb)]:
    [false] when it throws (ERR_MISSING_ARGS, ERR_SOCKET_BAD_PORT). *)
Variable port_accepted : option string -> bool.

(** The ['data'] listener of [getOn] (lines 144-150). *)
Definition getOn_on_data (isOn : bool) (chunk : string) : exec bool :=
  match JSON_parse chunk with
  | None => Throw SyntaxError_JSON
  | Some response =>
      match read_result response with
      | Throw e => Throw e
      | Ret r => if truthy r then Ret (match r with Some v => is_on v | None => false end)
                 else Ret isOn
      end
  end.

Definition getOn_payload : string :=
  "{" ++ quoted "id" ++ ":1," ++ quoted "method" ++ ":" ++ quoted "get_prop" ++ ","
  ++ quoted "params" ++ ":[" ++ quoted "power" ++ "]}" ++ crlf.

Record get_state := { g_isOn : bool; g_ops : list sock_op }.

(** One event handled by the listeners of [getOn]; [Throw]: the exception
    escapes the listener (or, for an ['error'] event, the emitter, as
    there is no ['error'] listener) and ends the process. *)
Definition getOn_event (st : get_state) (ev : tcp_event) : exec get_state :=
  match ev with
  | TConnect => Ret {| g_isOn := g_isOn st; g_ops := (g_ops st ++ [SockWrite getOn_payload])%list |}
  | TData chunk =>
      match getOn_on_data (g_isOn st) chunk with
      | Ret b => Ret {| g_isOn := b; g_ops := g_ops st |}
      | Throw e => Throw e
      end
  | TError code => Throw (SocketError code)
  | TClose => Ret st
  end.

(** How the 1000 ms wait ends: the timer fires, or an uncaught exception
    ends the process first. *)
Inductive wait_end :=
  | Waited (st : get_state)
  | Crashed (st : get_state) (e : js_error).

(** [await new Promise(resolve => setTimeout(resolve, 1000))]: the events
    before the 1000 ms mark are handled in order; then [client.destroy()]
    runs and no later event is delivered. *)
Fixpoint getOn_wait (st : get_state) (trace : list (nat * tcp_event)) : wait_end :=
  match trace with
  | [] => Waited st
  | (t, ev) :: rest =>
      if (t <? 1000)%nat then
        match getOn_event st ev with
        | Ret st' => getOn_wait st' rest
        | Throw e => Crashed st e
        end
      else Waited st
  end.

Definition getOn (location : option string) (trace : list (nat * tcp_event)) : run :=
  match split_location location with
  | Throw e => {| result := Rejected e; ops := []; uncaught_errors := [] |}
  | Ret (ip, port) =>
      if port_accepted port then
        match getOn_wait {| g_isOn := false; g_ops := [SockCreate; SockConnect port ip] |} trace with
        | Waited st =>
            {| result := Fulfilled (VBool (g_isOn st)); ops := (g_ops st ++ [SockDestroy])%list;
               uncaught_errors := [] |}
        | Crashed st e => {| result := Unsettled; ops := g_ops st; uncaught_errors := [e] |}
        end
      else {| result := Rejected ConnectArgError; ops := [SockCreate]; uncaught_errors := [] |}
  end.

Definition setOn_payload (value : bool) : string :=
  "{" ++ quoted "id" ++ ":1," ++ quoted "method" ++ ":" ++ quoted "set_power" ++ ","
  ++ quoted "params" ++ ":[" ++ quoted (if value then "on" else "off") ++ ","
  ++ quoted "smooth" ++ ",500]}" ++ crlf.

(** The listeners of [setOn] (lines 106-116): write on connect, destroy on
    each reply chunk; there is no ['error'] listener, so an ['error']
    event is thrown and ends the process. *)
Fixpoint setOn_events (value : bool) (acc : list sock_op) (trace : list (nat * tcp_event))
  : list sock_op * option js_error :=
  match trace with
  | [] => (acc, None)
  | (_, ev) :: rest =>
      match ev with
      | TConnect => setOn_events value (acc ++ [SockWrite (setOn_payload value)])%list rest
      | TData _ => setOn_events value (acc ++ [SockDestroy])%list rest
      | TError code => (acc, Some (SocketError code))
      | TClose => setOn_events value acc rest
      end
  end.

(** [setOn] has no [await]: its promise settles when the synchronous part
    ends; the listeners run afterwards on the events of the trace. *)
Definition setOn (location : option string) (value : bool) (trace : list (nat * tcp_event)) : run :=
  match split_location location with
  | Throw e => {| result := Rejected e; ops := []; uncaught_errors := [] |}
  | Ret (ip, port) =>
      if port_accepted port then
        let '(o, err) := setOn_events value [SockCreate; SockConnect port ip] trace in
        {| result := Fulfilled VUndefined; ops := o; uncaught_errors := option_list err |}
      else {| result := Rejected ConnectArgError; ops := [SockCreate]; uncaught_errors := [] |}
  end.

End Control.

(* ------------------------------------------------------------------ *)
(** ** Readings of the results, and stand-ins for the runtime *)

(** The key and value [parseScript] takes from one line, if any. *)
Definition line_entry (line : string) : option (string * string) :=
  match js_indexOf ":" line with
  | Some i => Some (js_toLowerCase (js_trim (js_slice_to i line)),
                    js_trim (js_slice_from (S i) line))
  | None => None
  end.

(** The value of the last line (of a list read from its end) whose key is [k]. *)
Fixpoint last_entry (k : string) (rev_lines : list string) : option string :=
  match rev_lines with
  | [] => None
  | l :: r =>
      match line_entry l with
      | Some (k', v) => if String.eqb k' k then Some v else last_entry k r
      | None => last_entry k r
      end
  end.




(** Events that leave the discovery socket open. *)
Definition collecting (ev : dgram_event) : Prop :=
  match ev with DListening _ | DMessage _ => True | _ => False end.

Fixpoint collected (trace : list dgram_event) : list (gmap string string) :=
  match trace with
  | [] => []
  | DMessage text :: r => parseScript text :: collected r
  | _ :: r => collected r
  end.

(** The events [getOn]'s listeners see: those before the first one at
    or after the 1000 ms mark. *)
Fixpoint delivered_events (trace : list (nat * tcp_event)) : list tcp_event :=
  match trace with
  | [] => []
  | (t, ev) :: r => if (t <? 1000)%nat then ev :: delivered_events r else []
  end.

(** The exception an event throws out of [getOn]'s listeners, if any: an
    ['error'] event (no listener), a chunk [JSON.parse] rejects, or a
    chunk that parses to [null] ([null.result]). *)
Definition getOn_throw (parse : string -> option jvalue) (ev : tcp_event) : option js_error :=
  match ev with
  | TError code => Some (SocketError code)
  | TData chunk =>
      match parse chunk with
      | None => Some SyntaxError_JSON
      | Some JNull => Some TypeError_property_of_null
      | Some _ => None
      end
  | _ => None
  end.

(** The events before the first one that throws, and its exception. *)
Fixpoint until_throw (parse : string -> option jvalue) (evs : list tcp_event)
  : list tcp_event * option js_error :=
  match evs with
  | [] => ([], None)
  | ev :: r =>
      match getOn_throw parse ev with
      | Some e => ([], Some e)
      | None => let '(seen, err) := until_throw parse r in (ev :: seen, err)
      end
  end.

Fixpoint connects (evs : list tcp_event) : nat :=
  match evs with
  | [] => O
  | TConnect :: r => S (connects r)
  | _ :: r => connects r
  end.

Fixpoint chunks (evs : list tcp_event) : list string :=
  match evs with
  | [] => []
  | TData c :: r => c :: chunks r
  | _ :: r => chunks r
  end.

(** What a chunk says about the power state, if anything: it parses to a
    value whose [result] field is truthy, and then it says "on" exactly
    when [result[0]] is the string "on". *)
Definition chunk_verdict (parse : string -> option jvalue) (chunk : string) : option bool :=
  match parse chunk with
  | Some response =>
      match read_result response with
      | Ret r => if truthy r then Some (match r with Some v => is_on v | None => false end)
                 else None
      | Throw _ => None
      end
  | None => None
  end.

(** The last chunk that says something decides; no such chunk leaves
    [false]. *)
Definition verdict (parse : string -> option jvalue) (evs : list tcp_event) : bool :=
  default false (last (omap (chunk_verdict parse) (chunks evs))).

(** The state of [getOn]'s listeners after events none of which throws. *)
Definition getOn_after (parse : string -> option jvalue) (st : get_state) (evs : list tcp_event)
  : get_state :=
  {| g_isOn := default (g_isOn st) (last (omap (chunk_verdict parse) (chunks evs)));
     g_ops := (g_ops st ++ replicate (connects evs) (SockWrite getOn_payload))%list |}.

(** The synchronous part of [getOn] and [setOn] goes through: the location
    splits and [connect] accepts the port. *)
Definition sync_ok (port_ok : option string -> bool) (location : option string) : bool :=
  match split_location location with
  | Ret (_, port) => port_ok port
  | Throw _ => false
  end.

Fixpoint destroys (l : list sock_op) : nat :=
  match l with
  | [] => O
  | SockDestroy :: r => S (destroys r)
  | _ :: r => destroys r
  end.


(** The reply of a bulb that is on: [{"id":1,"result":["on"]}]. *)
Definition reply_on : string :=
  "{" ++ quoted "id" ++ ":1," ++ quoted "result" ++ ":[" ++ quoted "on" ++ "]}" ++ crlf.

(** Stand-in for [JSON.parse], agreeing with it on the texts of the runs
    below ([reply_on] and texts that are not JSON). *)
Definition json_stub (text : string) : option jvalue :=
  if String.eqb text reply_on
  then Some (JObj [("id", JNum 1); ("result", JArr [JStr "on"])])
  else None.

(** [Number(s)] on a string, in exact decimal arithmetic: not a number, a
    signed infinity, or (-1)^neg * m * 10^e.  The grammar is ECMAScript's
    StringNumericLiteral: white space around, then nothing (the number 0),
    a 0b/0o/0x integer, or a signed [Infinity] or decimal literal with
    optional fraction and exponent.  Node rounds the value to a double;
    the two agree except on literals a double cannot hold exactly. *)
Inductive js_number :=
  | NumNaN
  | NumInf (neg : bool)
  | NumFin (neg : bool) (m e : Z).

Definition is_digit (c : ascii) : bool :=
  let n := nat_of_ascii c in ((48 <=? n) && (n <=? 57))%nat.

Fixpoint span_digits (l : list ascii) : list ascii * list ascii :=
  match l with
  | [] => ([], [])
  | c :: l' => if is_digit c then let '(ds, r) := span_digits l' in (c :: ds, r) else ([], l)
  end.

Definition digits_Z (ds : list ascii) : Z :=
  fold_left (fun acc c => acc * 10 + Z.of_nat (nat_of_ascii c - 48))%Z ds 0%Z.

Definition radix_digit (r : Z) (c : ascii) : option Z :=
  let n := Z.of_nat (nat_of_ascii c) in
  let d := if ((48 <=? n) && (n <=? 57))%Z then (n - 48)%Z
           else if ((97 <=? n) && (n <=? 122))%Z then (n - 87)%Z
           else if ((65 <=? n) && (n <=? 90))%Z then (n - 55)%Z
           else 99%Z in
  if (d <? r)%Z then Some d else None.

Fixpoint radix_value (r : Z) (l : list ascii) (acc : Z) : option Z :=
  match l with
  | [] => Some acc
  | c :: l' => match radix_digit r c with
               | Some d => radix_value r l' (acc * r + d)%Z
               | None => None
               end
  end.

Definition radix_prefix (c : ascii) : option Z :=
  if Ascii.eqb c "b" || Ascii.eqb c "B" then Some 2%Z
  else if Ascii.eqb c "o" || Ascii.eqb c "O" then Some 8%Z
  else if Ascii.eqb c "x" || Ascii.eqb c "X" then Some 16%Z
  else None.

Definition parse_exponent (l : list ascii) : option Z :=
  match l with
  | [] => Some 0%Z
  | c :: l' =>
      if Ascii.eqb c "e" || Ascii.eqb c "E" then
        let '(neg, l'') := match l' with
                           | x :: r => if Ascii.eqb x "+" then (false, r)
                                       else if Ascii.eqb x "-" then (true, r)
                                       else (false, l')
                           | [] => (false, l')
                           end in
        match span_digits l'' with
        | ((_ :: _) as ds, []) => Some (if neg then Z.opp (digits_Z ds) else digits_Z ds)
        | _ => None
        end
      else None
  end.

(** Digits, an optional fraction, an optional exponent; at least one
    digit: [(m, e)]. *)
Definition parse_decimal (l : list ascii) : option (Z * Z) :=
  let '(ip, r) := span_digits l in
  let '(fp, r') := match r with
                   | c :: r1 => if Ascii.eqb c "." then span_digits r1 else ([], r)
                   | [] => ([], [])
                   end in
  match (ip ++ fp)%list with
  | [] => None
  | ds => match parse_exponent r' with
          | Some x => Some (digits_Z ds, (x - Z.of_nat (length fp))%Z)
          | None => None
          end
  end.

Definition signed_decimal (l : list ascii) : js_number :=
  let '(neg, body) := match l with
                      | c :: b => if Ascii.eqb c "+" then (false, b)
                                  else if Ascii.eqb c "-" then (true, b)
                                  else (false, l)
                      | [] => (false, l)
                      end in
  if String.eqb (string_of_list_ascii body) "Infinity" then NumInf neg
  else match parse_decimal body with
       | Some (m, e) => NumFin neg m e
       | None => NumNaN
       end.

Definition js_Number (s : string) : js_number :=
  let l := list_ascii_of_string (js_trim s) in
  match l with
  | [] => NumFin false 0 0
  | c0 :: c1 :: rest =>
      match (if Ascii.eqb c0 "0" then radix_prefix c1 else None) with
      | Some r => match rest with
                  | [] => NumNaN
                  | _ => match radix_value r rest 0 with
                         | Some v => NumFin false v 0
                         | None => NumNaN
                         end
                  end
      | None => signed_decimal l
      end
  | _ => signed_decimal l
  end.

(** [m * 10^e], for [m >= 0] written with at most [len] digits, is an
    integer from 0 to 65535. *)
Definition port_range (m e : Z) (len : nat) : bool :=
  if (m =? 0)%Z then true
  else if (0 <=? e)%Z then ((e <=? 4) && (m * 10 ^ e <=? 65535))%Z
  else ((- e <=? Z.of_nat len) && (Z.rem m (10 ^ (- e)) =? 0) && (m / 10 ^ (- e) <=? 65535))%Z.

(** Stand-in for the synchronous argument check of Node's
    [connect(port, host, cb)]: [undefined] throws ERR_MISSING_ARGS; a
    string whose [Number] is NaN or negative is a pipe name
    ([isPipeName]) and passes; any other string goes through
    [validatePort], which throws ERR_SOCKET_BAD_PORT unless it is not
    blank and denotes an integer from 0 to 65535. *)
Definition node_port_ok (port : option string) : bool :=
  match port with
  | None => false
  | Some s =>
      match js_Number s with
      | NumNaN => true
      | NumInf neg => neg
      | NumFin neg m e =>
          if neg && negb (m =? 0)%Z then true
          else negb (String.eqb (js_trim s) EmptyString) && port_range m e (String.length s)
      end
  end.

(** [s] does not contain the character [c]. *)
Fixpoint char_free (c : ascii) (s : string) : bool :=
  match s with
  | EmptyString => true
  | String a s' => negb (Ascii.eqb a c) && char_free c s'
  end.

(** [split] on a one-character separator, by structural recursion; it
    agrees with [js_split] (lemma [js_split_char]). *)
Fixpoint split_char (c : ascii) (s : string) : list string :=
  match s with
  | EmptyString => [EmptyString]
  | String a s' =>
      if Ascii.eqb a c then EmptyString :: split_char c s'
      else match split_char c s' with
           | [] => [String a EmptyString]
           | w :: ws => String a w :: ws
           end
  end.

Definition newline : string := String "010"%char EmptyString.

(** The timer events of a discovery trace, and the reply chunks of a
    control trace before its first ['error'] event (an uncaught exception
    for [setOn], which has no ['error'] listener). *)
Fixpoint timer_events (trace : list dgram_event) : nat :=
  match trace with
  | [] => O
  | DTimer :: r => S (timer_events r)
  | _ :: r => timer_events r
  end.

Fixpoint data_events (trace : list (nat * tcp_event)) : nat :=
  match trace with
  | [] => O
  | (_, TData _) :: r => S (data_events r)
  | (_, TError _) :: _ => O
  | _ :: r => data_events r
  end.

(** A character list that [drop_space] leaves as it is. *)
Definition head_not_space (l : list ascii) : bool :=
  match l with [] => true | c :: _ => negb (js_is_space c) end.

(* ================================================================== *)
(** * Properties *)

(* ------------------------------------------------------------------ *)
(** ** Response parser *)

Lemma parse_line_by_entry (m : gmap string string) (l : string) :
  parse_line m l = match line_entry l with
                   | Some (k, v) => obj_set k v m
                   | None => m
                   end.
Proof. unfold parse_line, line_entry. by destruct (js_indexOf ":" l). Qed.

Lemma obj_set_lookup (m : gmap string string) k' v k :
  k <> "__proto__" ->
  obj_set k' v m !! k = if String.eqb k' k then Some v else m !! k.
Proof.
  intros Hk. unfold obj_set.
  destruct (String.eqb_spec k' "__proto__") as [->|Hp].
  - destruct (String.eqb_spec "__proto__" k); [congruence | done].
  - destruct (String.eqb_spec k' k) as [->|Hne].
    + by rewrite lookup_insert_eq.
    + by rewrite lookup_insert_ne.
Qed.

Lemma last_entry_app k (r1 r2 : list string) :
  last_entry k (r1 ++ r2) =
  match last_entry k r1 with Some v => Some v | None => last_entry k r2 end.
Proof.
  induction r1 as [|l r1 IH]; simpl; [done|].
  destruct (line_entry l) as [[k' v]|]; [|done].
  by destruct (String.eqb k' k).
Qed.

Lemma fold_parse_line_lookup (ls : list string) (m : gmap string string) k :
  k <> "__proto__" ->
  fold_left parse_line ls m !! k =
  match last_entry k (rev ls) with Some v => Some v | None => m !! k end.
Proof.
  intros Hk. revert m. induction ls as [|l ls IH]; intros m; simpl; [done|].
  rewrite IH, last_entry_app. simpl.
  destruct (last_entry k (rev ls)); [done|].
  rewrite parse_line_by_entry.
  destruct (line_entry l) as [[k' v]|]; [|done].
  rewrite obj_set_lookup by done. by destruct (String.eqb k' k).
Qed.

(** Every key other than "__proto__" maps to the value of the last line
    carrying that key; a key no line carries is absent. *)
Lemma parseScript_lookup (script k : string) :
  k <> "__proto__" ->
  parseScript script !! k = last_entry k (rev (js_split (String "010"%char EmptyString) script)).
Proof.
  intros Hk. unfold parseScript. rewrite fold_parse_line_lookup by done.
  by destruct (last_entry _ _).
Qed.

Lemma parseScript_lookup_witness :
  "id" <> "__proto__" /\
  parseScript ("id: 0x1" ++ crlf ++ "ID: 0x2" ++ crlf) !! "id" = Some "0x2".
Proof.
  split; [discriminate|].
  rewrite (parseScript_lookup ("id: 0x1" ++ crlf ++ "ID: 0x2" ++ crlf) "id") by discriminate.
  vm_compute. reflexivity.
Defined.

(** C3 (code_bug).  A reply line whose key is "__proto__" (in any case)
    contains ':' but yields no entry: the assignment [data[key] = value]
    hits the inherited [__proto__] setter, which ignores strings. *)
Theorem parseScript_proto_line_dropped :
  parseScript ("id: 0x1" ++ crlf ++ "__PROTO__: polluted" ++ crlf) = <["id" := "0x1"]> ∅
  /\ parseScript ("id: 0x1" ++ crlf ++ "__PROTO__: polluted" ++ crlf) !! "__proto__" = None.
Proof. split; vm_compute; reflexivity. Qed.

(* ------------------------------------------------------------------ *)
(** ** Reconciliation loop *)








(* ------------------------------------------------------------------ *)
(** ** Discovery event loop *)

Lemma collecting_run ug accs br (pre : list dgram_event) (st : disc_state) :
  Forall collecting pre -> sock_open st = true ->
  fold_left (disc_step ug accs br) pre st =
  {| devices := devices st ++ collected pre; sock_open := true;
     performed := performed st; uncaught := uncaught st |}.
Proof.
  intros Hpre. revert st.
  induction Hpre as [|ev pre Hev Hpre IH]; intros st Hopen; simpl.
  - destruct st; simpl in *; subst. by rewrite app_nil_r.
  - destruct ev as [ok|text|code| |code]; simpl in Hev; try contradiction.
    + cbn [disc_step]. rewrite IH by done. done.
    + cbn [disc_step]. rewrite Hopen. rewrite IH by done. simpl. by rewrite <- app_assoc.
Qed.

Lemma closed_run_performed ug accs br (rest : list dgram_event) (st : disc_state) :
  sock_open st = false ->
  performed (fold_left (disc_step ug accs br) rest st) = performed st /\
  sock_open (fold_left (disc_step ug accs br) rest st) = false.
Proof.
  revert st. induction rest as [|ev rest IH]; intros st Hc; simpl; [done|].
  destruct ev; simpl.
  - by apply IH.
  - rewrite Hc. by apply IH.
  - rewrite Hc. by apply IH.
  - unfold socket_close. rewrite Hc.
    destruct (IH {| devices := devices st; sock_open := false; performed := performed st;
                    uncaught := uncaught st ++ [ERR_SOCKET_DGRAM_NOT_RUNNING] |} eq_refl)
      as [-> ->].
    done.
  - rewrite Hc. by apply IH.
Qed.

Lemma discovery_timer_run ug accs br (pre : list dgram_event) :
  Forall collecting pre ->
  performed (discoverDevices ug accs br (pre ++ [DTimer])) = (close_loop ug accs br (collected pre)).1.
Proof.
  intros Hpre. unfold discoverDevices. rewrite fold_left_app. simpl.
  rewrite (collecting_run ug accs br pre disc_init Hpre eq_refl). simpl.
  unfold socket_close. simpl.
  by destruct (close_loop ug accs br (collected pre)).
Qed.

(** C8.  When an ['error'] event comes after some replies (and before the
    timer), the ['error'] handler closes the socket and the ['close']
    handler reconciles every record collected before the error, exactly
    as the timer would have; nothing later changes the actions. *)
Theorem discovery_error_keeps_records ug accs br (pre rest : list dgram_event) (code : string) :
  Forall collecting pre ->
  performed (discoverDevices ug accs br (pre ++ DError code :: rest)) =
  (close_loop ug accs br (collected pre)).1 /\
  performed (discoverDevices ug accs br (pre ++ DError code :: rest)) =
  performed (discoverDevices ug accs br (pre ++ [DTimer])).
Proof.
  intros Hpre.
  enough (H : performed (discoverDevices ug accs br (pre ++ DError code :: rest)) =
              (close_loop ug accs br (collected pre)).1).
  { split; [done|]. by rewrite H, discovery_timer_run. }
  unfold discoverDevices. rewrite fold_left_app. simpl.
  rewrite (collecting_run ug accs br pre disc_init Hpre eq_refl). simpl.
  unfold socket_close. simpl.
  destruct (close_loop ug accs br (collected pre)) as [acts err] eqn:Hc. simpl.
  match goal with
  | |- performed (fold_left _ _ ?st) = _ =>
      rewrite (proj1 (closed_run_performed ug accs br rest st eq_refl))
  end.
  done.
Qed.

Lemma discovery_error_keeps_records_witness :
  Forall collecting [DListening true; DMessage ("id: 0x1" ++ crlf ++ "model: color" ++ crlf)] /\
  performed (discoverDevices hap_uuid [] []
     ([DListening true; DMessage ("id: 0x1" ++ crlf ++ "model: color" ++ crlf)]
      ++ DError "ECONNRESET" :: [DTimer])) =
  [Create (Some "color") "uuid:0x1" (<["model" := "color"]> (<["id" := "0x1"]> ∅))].
Proof.
  split.
  - repeat constructor.
  - rewrite (proj1 (discovery_error_keeps_records hap_uuid [] []
                      [DListening true; DMessage ("id: 0x1" ++ crlf ++ "model: color" ++ crlf)]
                      [DTimer] "ECONNRESET" ltac:(repeat constructor))).
    vm_compute. reflexivity.
Defined.

(** C9 (code_bug).  A bulb answering the probe twice gives two records
    with the same id.  The accessory created for the first is never added
    to [this.accessories], so the second record misses [find] and takes
    the [Create] branch again: it builds a second accessory with the same
    uuid, and [registerPlatformAccessories] throws the duplicate-UUID
    error, which nothing catches. *)
Theorem discovery_duplicate_reply_created_twice :
  let reply := "HTTP/1.1 200 OK" ++ crlf ++ "id: 0x1" ++ crlf ++ "model: color" ++ crlf
               ++ "Location: yeelight://10.0.0.5:55443" ++ crlf in
  let device := <["location" := "yeelight://10.0.0.5:55443"]>
                  (<["model" := "color"]> (<["id" := "0x1"]> ∅)) in
  let st := discoverDevices hap_uuid [] [] [DListening true; DMessage reply; DMessage reply; DTimer] in
  devices st = [device; device] /\
  find_existing [] "uuid:0x1" = None /\
  performed st = [Create (Some "color") "uuid:0x1" device] /\
  uncaught st = [Error_duplicate_UUID "uuid:0x1"].
Proof. vm_compute. repeat split. Qed.

(* ------------------------------------------------------------------ *)
(** ** Control channel *)

Lemma getOn_after_nil parse st : getOn_after parse st [] = st.
Proof. destruct st as [b o]. unfold getOn_after. simpl. by rewrite app_nil_r. Qed.

Lemma chunks_app (a b : list tcp_event) : chunks (a ++ b) = (chunks a ++ chunks b)%list.
Proof. induction a as [|[] a IH]; simpl; by rewrite ?IH. Qed.

Lemma connects_app (a b : list tcp_event) : connects (a ++ b) = (connects a + connects b)%nat.
Proof. induction a as [|[] a IH]; simpl; by rewrite ?IH. Qed.

Lemma getOn_after_app parse st a b :
  getOn_after parse (getOn_after parse st a) b = getOn_after parse st (a ++ b).
Proof.
  unfold getOn_after. simpl. f_equal.
  - rewrite chunks_app, omap_app, last_app.
    by destruct (last (omap (chunk_verdict parse) (chunks b))).
  - by rewrite connects_app, replicate_add, app_assoc.
Qed.

Lemma getOn_event_spec parse st ev :
  getOn_event parse st ev =
  match getOn_throw parse ev with
  | Some e => Throw e
  | None => Ret (getOn_after parse st [ev])
  end.
Proof.
  destruct st as [b o]. unfold getOn_after.
  destruct ev as [|c|code|]; simpl; rewrite ?app_nil_r; try done.
  unfold getOn_on_data, chunk_verdict.
  destruct (parse c) as [[]|]; simpl; rewrite ?app_nil_r; try done;
    match goal with |- context [truthy ?r] => destruct (truthy r) end; done.
Qed.

(** The 1000 ms wait in closed form: the delivered events up to the first
    that throws are handled; that one, if any, ends the process. *)
Lemma getOn_wait_spec parse st tr :
  getOn_wait parse st tr =
  match until_throw parse (delivered_events tr) with
  | (seen, None) => Waited (getOn_after parse st seen)
  | (seen, Some e) => Crashed (getOn_after parse st seen) e
  end.
Proof.
  revert st. induction tr as [|[t ev] tr IH]; intros st; simpl.
  - by rewrite getOn_after_nil.
  - destruct (t <? 1000)%nat; simpl; [|by rewrite getOn_after_nil].
    rewrite getOn_event_spec.
    destruct (getOn_throw parse ev) as [e|]; [by rewrite getOn_after_nil|].
    rewrite IH. destruct (until_throw parse (delivered_events tr)) as [seen [e|]];
      by rewrite getOn_after_app.
Qed.

(** [getOn] in closed form. *)
Lemma getOn_spec parse pa loc tr :
  getOn parse pa loc tr =
  match split_location loc with
  | Throw e => {| result := Rejected e; ops := []; uncaught_errors := [] |}
  | Ret (ip, port) =>
      if pa port then
        match until_throw parse (delivered_events tr) with
        | (seen, None) =>
            {| result := Fulfilled (VBool (verdict parse seen));
               ops := ([SockCreate; SockConnect port ip]
                       ++ replicate (connects seen) (SockWrite getOn_payload) ++ [SockDestroy])%list;
               uncaught_errors := [] |}
        | (seen, Some e) =>
            {| result := Unsettled;
               ops := ([SockCreate; SockConnect port ip]
                       ++ replicate (connects seen) (SockWrite getOn_payload))%list;
               uncaught_errors := [e] |}
        end
      else {| result := Rejected ConnectArgError; ops := [SockCreate]; uncaught_errors := [] |}
  end.
Proof.
  unfold getOn. destruct (split_location loc) as [[ip port]|e]; [|done].
  destruct (pa port); [|done]. rewrite getOn_wait_spec.
  destruct (until_throw parse (delivered_events tr)) as [seen [e|]]; simpl; [done|].
  by rewrite <- ?app_assoc.
Qed.


(** Events before the 1000 ms mark none of which throws are handled and
    passed over. *)
Lemma until_throw_quiet parse (tr1 tr2 : list (nat * tcp_event)) :
  Forall (fun te => (te.1 < 1000)%nat /\ getOn_throw parse te.2 = None) tr1 ->
  until_throw parse (delivered_events (tr1 ++ tr2)%list) =
  ((map snd tr1 ++ (until_throw parse (delivered_events tr2)).1)%list,
   (until_throw parse (delivered_events tr2)).2).
Proof.
  induction 1 as [|[t ev] tr1 [Ht Hn] Hall IH]; simpl in *.
  - by destruct (until_throw parse (delivered_events tr2)).
  - apply Nat.ltb_lt in Ht. rewrite Ht. simpl. rewrite Hn, IH. done.
Qed.

Lemma until_throw_hit parse (tr1 tr2 : list (nat * tcp_event)) t ev e :
  Forall (fun te => (te.1 < 1000)%nat /\ getOn_throw parse te.2 = None) tr1 ->
  (t < 1000)%nat -> getOn_throw parse ev = Some e ->
  until_throw parse (delivered_events (tr1 ++ (t, ev) :: tr2)%list) = (map snd tr1, Some e).
Proof.
  intros Hq Ht He. rewrite until_throw_quiet by done. simpl.
  apply Nat.ltb_lt in Ht. rewrite Ht. simpl. rewrite He. simpl. by rewrite app_nil_r.
Qed.

Lemma destroys_app l1 l2 : destroys (l1 ++ l2) = (destroys l1 + destroys l2)%nat.
Proof. induction l1 as [|[] l1 IH]; simpl; lia. Qed.

Lemma destroys_writes n p : destroys (replicate n (SockWrite p)) = O.
Proof. induction n; simpl; done. Qed.

Lemma setOn_events_prefix v (tr : list (nat * tcp_event)) (l0 : list sock_op) :
  exists r, (setOn_events v l0 tr).1 = (l0 ++ r)%list.
Proof.
  revert l0. induction tr as [|[t ev] tr IH]; intros l0; simpl.
  - exists []. by rewrite app_nil_r.
  - destruct ev.
    + destruct (IH (l0 ++ [SockWrite (setOn_payload v)])%list) as [r ->].
      exists (SockWrite (setOn_payload v) :: r). by rewrite <- app_assoc.
    + destruct (IH (l0 ++ [SockDestroy])%list) as [r ->].
      exists (SockDestroy :: r). by rewrite <- app_assoc.
    + exists []. by rewrite app_nil_r.
    + apply IH.
Qed.


(** The settlement of [setOn]'s promise depends on its synchronous part
    only. *)
Lemma setOn_result_eq pa loc v tr :
  result (setOn pa loc v tr) =
  match split_location loc with
  | Throw e => Rejected e
  | Ret (_, port) => if pa port then Fulfilled VUndefined else Rejected ConnectArgError
  end.
Proof.
  unfold setOn. destruct (split_location loc) as [[ip port]|e]; [|done].
  destruct (pa port); [|done]. by destruct (setOn_events v [SockCreate; SockConnect port ip] tr).
Qed.



(** C5 (corrected).  An unparsable chunk delivered before the 1000 ms mark
    (and after events none of which throws) makes [JSON.parse] throw
    inside the ['data'] listener, which does not catch it: the exception
    ends the process.  [getOn]'s promise never settles, no decode error
    reaches its caller, and the socket is never destroyed. *)
Theorem getOn_unparsable_chunk (parse : string -> option jvalue) (pa : option string -> bool)
    (loc : option string) (tr1 tr2 : list (nat * tcp_event)) (t : nat) (chunk : string) :
  parse chunk = None -> (t < 1000)%nat -> sync_ok pa loc = true ->
  Forall (fun te => (te.1 < 1000)%nat /\ getOn_throw parse te.2 = None) tr1 ->
  (forall b, getOn_on_data parse b chunk = Throw SyntaxError_JSON) /\
  result (getOn parse pa loc (tr1 ++ (t, TData chunk) :: tr2)%list) = Unsettled /\
  uncaught_errors (getOn parse pa loc (tr1 ++ (t, TData chunk) :: tr2)%list) = [SyntaxError_JSON] /\
  destroys (ops (getOn parse pa loc (tr1 ++ (t, TData chunk) :: tr2)%list)) = O.
Proof.
  intros Hparse Ht Hsync Hq. split.
  - intros b. unfold getOn_on_data. by rewrite Hparse.
  - rewrite getOn_spec. unfold sync_ok in Hsync.
    destruct (split_location loc) as [[ip port]|e]; [|discriminate].
    rewrite Hsync.
    rewrite (until_throw_hit parse tr1 tr2 t (TData chunk) SyntaxError_JSON Hq Ht)
      by (simpl; by rewrite Hparse).
    simpl. split; [done|]. split; [done|].
    rewrite destroys_writes. done.
Qed.

(** C5: the claim fails.  After an unparsable reply [getOn]'s promise
    never settles: the parse error ends the process before the socket is
    destroyed. *)
Lemma getOn_unparsable_chunk_cex :
  let run := getOn json_stub node_port_ok (Some "yeelight://10.0.0.5:55443")
               [(5, TConnect); (300, TData "not json")] in
  result run = Unsettled /\ uncaught_errors run = [SyntaxError_JSON] /\
  ops run = [SockCreate; SockConnect (Some "55443") "10.0.0.5"; SockWrite getOn_payload].
Proof. vm_compute. repeat split. Qed.

Lemma getOn_unparsable_chunk_witness :
  json_stub "not json" = None /\ (300 < 1000)%nat /\
  sync_ok node_port_ok (Some "yeelight://10.0.0.5:55443") = true /\
  Forall (fun te => (te.1 < 1000)%nat /\ getOn_throw json_stub te.2 = None) [(5%nat, TConnect)] /\
  result (getOn json_stub node_port_ok (Some "yeelight://10.0.0.5:55443")
            ([(5%nat, TConnect)] ++ (300%nat, TData "not json") :: [])%list) = Unsettled.
Proof.
  split; [reflexivity|]. split; [lia|]. split; [vm_compute; reflexivity|].
  split; [repeat constructor; simpl; lia|].
  destruct (getOn_unparsable_chunk json_stub node_port_ok (Some "yeelight://10.0.0.5:55443")
              [(5%nat, TConnect)] [] 300 "not json" eq_refl ltac:(lia)
              ltac:(vm_compute; reflexivity)
              ltac:(repeat constructor; simpl; lia)) as [_ [H _]].
  exact H.
Defined.






(** C10.  [setOn] settles as soon as it has created the socket and called
    [connect]: its outcome is the same whatever the socket does later; the
    write happens in the connect callback, after the promise settled, and
    no reply is inspected. *)
Theorem setOn_settles_before_reply (pa : option string -> bool) (loc : option string)
    (v : bool) (tr tr' : list (nat * tcp_event)) :
  result (setOn pa loc v tr) = result (setOn pa loc v tr') /\
  ops (setOn pa loc v []) =
    match split_location loc with
    | Throw _ => []
    | Ret (ip, port) => if pa port then [SockCreate; SockConnect port ip] else [SockCreate]
    end /\
  ops (setOn pa loc v [(0%nat, TConnect)]) =
    (ops (setOn pa loc v []) ++ if sync_ok pa loc then [SockWrite (setOn_payload v)] else [])%list.
Proof.
  split; [by rewrite !setOn_result_eq|].
  unfold setOn, sync_ok. destruct (split_location loc) as [[ip port]|e]; [|done].
  by destruct (pa port).
Qed.

(* ================================================================== *)
(** * Further properties of the code *)

(* ------------------------------------------------------------------ *)
(** ** String primitives *)

Lemma substring_full (s : string) (m : nat) :
  (String.length s <= m)%nat -> String.substring 0 m s = s.
Proof.
  revert m. induction s as [|a s IH]; intros m Hm; simpl in *.
  - by destruct m.
  - destruct m as [|m]; [lia|]. simpl. f_equal. apply IH. lia.
Qed.

Lemma substring_app_l (k s : string) (n m : nat) :
  String.substring (String.length k + n) m (k ++ s) = String.substring n m s.
Proof. induction k as [|a k IH]; simpl; [done|]. apply IH. Qed.

Lemma substring_prefix (k s : string) :
  String.substring 0 (String.length k) (k ++ s) = k.
Proof. induction k as [|a k IH]; simpl; [by destruct s|]. by rewrite IH. Qed.

Lemma length_app_str (k s : string) :
  String.length (k ++ s) = (String.length k + String.length s)%nat.
Proof. induction k as [|a k IH]; simpl; [done|]. by rewrite IH. Qed.

Lemma substring_app_l0 (k s : string) (m : nat) :
  String.substring (String.length k) m (k ++ s) = String.substring 0 m s.
Proof. induction k as [|a k IH]; simpl; [done|]. apply IH. Qed.

Lemma prefix_app_self (k s : string) : String.prefix k (k ++ s) = true.
Proof.
  induction k as [|a k IH]; simpl; [by destruct s|].
  destruct (ascii_dec a a); [done|congruence].
Qed.

Lemma prefix_char_neq (c a : ascii) (sep' s : string) :
  a <> c -> String.prefix (String c sep') (String a s) = false.
Proof. intros H. simpl. destruct (ascii_dec c a); [congruence|done]. Qed.

Lemma char_free_cons (c a : ascii) (s : string) :
  char_free c (String a s) = true -> a <> c /\ char_free c s = true.
Proof.
  simpl. intros H. apply andb_prop in H as [H1 H2]. split; [|done].
  intros ->. by rewrite Ascii.eqb_refl in H1.
Qed.

(** A text free of the separator's first character is one piece. *)
Lemma js_split_fuel_free (c : ascii) (sep' s : string) (n : nat) :
  char_free c s = true -> js_split_fuel (String c sep') n s = [s].
Proof.
  revert s. induction n as [|n IH]; intros s Hs; simpl; [done|].
  destruct s as [|a s']; [done|].
  apply char_free_cons in Hs as [Ha Hs'].
  rewrite prefix_char_neq by done. by rewrite IH.
Qed.

(** The piece before the first separator, when it is free of the
    separator's first character. *)
Lemma js_split_fuel_first (c : ascii) (sep' a b : string) (n : nat) :
  char_free c a = true -> (String.length a < n)%nat ->
  js_split_fuel (String c sep') n (a ++ String c sep' ++ b) =
  a :: js_split_fuel (String c sep') (n - S (String.length a)) b.
Proof.
  revert n. induction a as [|x a IH]; intros n Ha Hn; simpl in *.
  - destruct n as [|n]; [lia|]. simpl.
    destruct (ascii_dec c c); [|congruence].
    rewrite prefix_app_self.
    rewrite substring_app_l0.
    rewrite substring_full by (rewrite length_app_str; lia).
    by rewrite Nat.sub_0_r.
  - apply char_free_cons in Ha as [Hx Ha].
    destruct n as [|n]; [lia|]. simpl.
    destruct (ascii_dec c x); [congruence|].
    rewrite IH by (done || lia). done.
Qed.

Lemma char_free_app (c : ascii) (a b : string) :
  char_free c (a ++ b) = char_free c a && char_free c b.
Proof. induction a as [|x a IH]; simpl; [done|]. by rewrite IH, andb_assoc. Qed.

Lemma js_split_char (c : ascii) (s : string) (n : nat) :
  (String.length s <= n)%nat -> js_split_fuel (String c EmptyString) n s = split_char c s.
Proof.
  revert s. induction n as [|n IH]; intros s Hs.
  - destruct s; simpl in *; [done|lia].
  - destruct s as [|a s']; [done|]. simpl in Hs. simpl.
    destruct (ascii_dec c a) as [->|Hne].
    + rewrite Ascii.eqb_refl. simpl.
      replace (String.prefix EmptyString s') with true by (destruct s'; reflexivity).
      f_equal. rewrite substring_full by lia. apply IH. lia.
    + rewrite (proj2 (Ascii.eqb_neq a c)) by congruence.
      rewrite IH by lia. done.
Qed.

Lemma split_char_nonempty (c : ascii) (s : string) : split_char c s <> [].
Proof.
  induction s as [|a s IH]; simpl; [done|].
  destruct (Ascii.eqb a c); [done|]. by destruct (split_char c s).
Qed.

Lemma split_char_app (c : ascii) (a b : string) :
  split_char c (a ++ String c b) = (split_char c a ++ split_char c b)%list.
Proof.
  induction a as [|x a IH]; simpl.
  - by rewrite Ascii.eqb_refl.
  - destruct (Ascii.eqb x c); [by rewrite IH|].
    rewrite IH. pose proof (split_char_nonempty c a) as Hne.
    by destruct (split_char c a).
Qed.

Lemma split_char_free (c : ascii) (s : string) : char_free c s = true -> split_char c s = [s].
Proof.
  induction s as [|a s IH]; simpl; [done|]. intros H.
  apply andb_prop in H as [H1 H2]. apply negb_true_iff in H1. rewrite H1, IH by done. done.
Qed.

Lemma index_free (c : ascii) (s : string) :
  char_free c s = true -> String.index 0 (String c EmptyString) s = None.
Proof.
  induction s as [|a s IH]; simpl; [done|]. intros H.
  apply andb_prop in H as [H1 H2]. apply negb_true_iff, Ascii.eqb_neq in H1.
  destruct (ascii_dec c a); [congruence|]. by rewrite IH.
Qed.

Lemma index_first (c : ascii) (k v : string) :
  char_free c k = true -> String.index 0 (String c EmptyString) (k ++ String c v) = Some (String.length k).
Proof.
  induction k as [|a k IH]; simpl; intros H.
  - destruct (ascii_dec c c); [|congruence]. by destruct v.
  - apply andb_prop in H as [H1 H2]. apply negb_true_iff, Ascii.eqb_neq in H1.
    destruct (ascii_dec c a); [congruence|]. by rewrite IH.
Qed.

Lemma js_split_newline (s : string) : js_split newline s = split_char "010"%char s.
Proof. apply js_split_char. lia. Qed.

Lemma parseScript_split (a b : string) :
  parseScript (a ++ newline ++ b) = fold_left parse_line (split_char "010"%char b) (parseScript a).
Proof.
  unfold parseScript. fold newline. rewrite !js_split_newline.
  change (newline ++ b) with (String "010"%char b).
  by rewrite split_char_app, fold_left_app.
Qed.

Lemma parse_line_free (m : gmap string string) (l : string) :
  char_free ":" l = true -> parse_line m l = m.
Proof. intros H. unfold parse_line, js_indexOf. by rewrite index_free. Qed.

(** Two header blocks joined by a newline: for every key but "__proto__"
    the second block's value wins and the first block fills in the keys
    the second one lacks. *)
Theorem parseScript_concat_lookup (a b k : string) :
  k <> "__proto__" ->
  parseScript (a ++ newline ++ b) !! k =
  match parseScript b !! k with Some v => Some v | None => parseScript a !! k end.
Proof.
  intros Hk. rewrite parseScript_split.
  rewrite fold_parse_line_lookup by done.
  assert (Hb : parseScript b !! k = last_entry k (rev (split_char "010"%char b))).
  { unfold parseScript. rewrite fold_parse_line_lookup by done.
    fold newline. rewrite js_split_newline, lookup_empty.
    by destruct (last_entry k (rev (split_char "010"%char b))). }
  rewrite Hb. by destruct (last_entry k (rev (split_char "010"%char b))).
Qed.

Lemma parseScript_concat_lookup_witness :
  "id" <> "__proto__" /\
  parseScript ("id: 0x1" ++ newline ++ "model: color") !! "id" = Some "0x1".
Proof.
  split; [discriminate|].
  rewrite (parseScript_concat_lookup "id: 0x1" "model: color" "id") by discriminate.
  vm_compute. reflexivity.
Defined.

(** A line without ':' between two others changes nothing. *)
Theorem parseScript_colon_free_line (a l b : string) :
  char_free ":" l = true -> char_free "010"%char l = true ->
  parseScript (a ++ newline ++ l ++ newline ++ b) = parseScript (a ++ newline ++ b).
Proof.
  intros Hc Hn. rewrite !parseScript_split.
  change (l ++ newline ++ b) with (l ++ String "010"%char b).
  rewrite split_char_app, fold_left_app, (split_char_free _ l Hn). simpl.
  by rewrite parse_line_free.
Qed.

Lemma parseScript_colon_free_line_witness :
  char_free ":" "HTTP/1.1 200 OK" = true /\ char_free "010"%char "HTTP/1.1 200 OK" = true /\
  parseScript ("id: 0x1" ++ newline ++ "HTTP/1.1 200 OK" ++ newline ++ "model: color")
  = parseScript ("id: 0x1" ++ newline ++ "model: color").
Proof.
  split; [reflexivity|]. split; [reflexivity|].
  apply parseScript_colon_free_line; reflexivity.
Defined.

(** A single header line is split at its first ':': the key is the
    trimmed, lower-cased text before it, the value the trimmed rest, which
    may itself contain ':'. *)
Theorem parseScript_single_line (k v : string) :
  char_free ":" k = true -> char_free "010"%char (k ++ ":" ++ v) = true ->
  js_toLowerCase (js_trim k) <> "__proto__" ->
  parseScript (k ++ ":" ++ v) = <[js_toLowerCase (js_trim k) := js_trim v]> ∅.
Proof.
  intros Hk Hn Hp. unfold parseScript. fold newline.
  rewrite js_split_newline, split_char_free by done. simpl.
  unfold parse_line, js_indexOf.
  change (":" ++ v) with (String ":"%char v).
  rewrite index_first by done.
  unfold js_slice_to, js_slice_from. rewrite substring_prefix.
  rewrite length_app_str. simpl.
  replace (S (String.length k)) with (String.length k + 1)%nat by lia.
  rewrite substring_app_l. simpl.
  replace (String.length k + S (String.length v) - (String.length k + 1))%nat
    with (String.length v) by lia.
  rewrite substring_full by lia.
  unfold obj_set. by destruct (String.eqb_spec (js_toLowerCase (js_trim k)) "__proto__").
Qed.

Lemma parseScript_single_line_witness :
  char_free ":" "Location" = true /\
  char_free "010"%char ("Location" ++ ":" ++ " yeelight://10.0.0.5:55443") = true /\
  js_toLowerCase (js_trim "Location") <> "__proto__" /\
  parseScript ("Location" ++ ":" ++ " yeelight://10.0.0.5:55443")
  = <["location" := "yeelight://10.0.0.5:55443"]> ∅.
Proof.
  split; [reflexivity|]. split; [reflexivity|]. split; [vm_compute; discriminate|].
  rewrite parseScript_single_line by (reflexivity || (vm_compute; discriminate)).
  vm_compute. reflexivity.
Defined.

Lemma split_location_wellformed (sch host port : string) :
  char_free "/" sch = true -> char_free "/" host = true -> char_free "/" port = true ->
  char_free ":" host = true -> char_free ":" port = true ->
  split_location (Some (sch ++ "//" ++ host ++ ":" ++ port)) = Ret (host, Some port).
Proof.
  intros Hs1 Hh1 Hp1 Hh2 Hp2. unfold split_location, js_split.
  rewrite (js_split_fuel_first "/" "/" sch (host ++ ":" ++ port)) by
    (done || (rewrite length_app_str; simpl; lia)).
  assert (Hr : char_free "/" (host ++ ":" ++ port) = true).
  { rewrite char_free_app, Hh1. exact Hp1. }
  rewrite (js_split_fuel_free _ _ _ _ Hr). simpl.
  rewrite (js_split_fuel_first ":" "" host port) by
    (done || (rewrite length_app_str; simpl; lia)).
  by rewrite js_split_fuel_free.
Qed.

(** A location of the form scheme://host:port, with no '/' outside the
    '//' and no ':' in host or port, is taken apart into exactly that host
    and port: when Node accepts the port, getOn and setOn both create a
    socket and connect it to that port on that host before anything else. *)
Theorem control_connect_target (parse : string -> option jvalue) (pa : option string -> bool)
    (sch host port : string) (v : bool) (tr : list (nat * tcp_event)) :
  char_free "/" sch = true -> char_free "/" host = true -> char_free "/" port = true ->
  char_free ":" host = true -> char_free ":" port = true -> pa (Some port) = true ->
  (exists r, ops (getOn parse pa (Some (sch ++ "//" ++ host ++ ":" ++ port)) tr)
             = SockCreate :: SockConnect (Some port) host :: r) /\
  (exists r, ops (setOn pa (Some (sch ++ "//" ++ host ++ ":" ++ port)) v tr)
             = SockCreate :: SockConnect (Some port) host :: r).
Proof.
  intros Hs1 Hh1 Hp1 Hh2 Hp2 Hpa.
  rewrite getOn_spec. unfold setOn. rewrite split_location_wellformed by done. rewrite Hpa.
  split.
  - destruct (until_throw parse (delivered_events tr)) as [seen [e|]]; simpl; eexists; reflexivity.
  - destruct (setOn_events_prefix v tr [SockCreate; SockConnect (Some port) host]) as [r Hr].
    destruct (setOn_events v [SockCreate; SockConnect (Some port) host] tr) as [o err].
    simpl in *. subst o. eexists. reflexivity.
Qed.

Lemma control_connect_target_witness :
  char_free "/" "yeelight:" = true /\ char_free "/" "10.0.0.5" = true /\ char_free "/" "55443" = true /\
  char_free ":" "10.0.0.5" = true /\ char_free ":" "55443" = true /\ node_port_ok (Some "55443") = true /\
  (exists r, ops (getOn json_stub node_port_ok (Some ("yeelight:" ++ "//" ++ "10.0.0.5" ++ ":" ++ "55443")) [])
             = SockCreate :: SockConnect (Some "55443") "10.0.0.5" :: r) /\
  (exists r, ops (setOn node_port_ok (Some ("yeelight:" ++ "//" ++ "10.0.0.5" ++ ":" ++ "55443")) true [])
             = SockCreate :: SockConnect (Some "55443") "10.0.0.5" :: r).
Proof.
  do 6 (split; [vm_compute; reflexivity|]).
  apply (control_connect_target json_stub node_port_ok "yeelight:" "10.0.0.5" "55443" true []);
    vm_compute; reflexivity.
Defined.

Lemma closed_run ug accs br (rest : list dgram_event) (st : disc_state) :
  sock_open st = false ->
  fold_left (disc_step ug accs br) rest st =
  {| devices := devices st; sock_open := false; performed := performed st;
     uncaught := uncaught st ++ replicate (timer_events rest) ERR_SOCKET_DGRAM_NOT_RUNNING |}.
Proof.
  revert st. induction rest as [|ev rest IH]; intros [d o p u] Hc; simpl in *; subst.
  - by rewrite app_nil_r.
  - destruct ev; simpl.
    + by rewrite IH.
    + by rewrite IH.
    + by rewrite IH.
    + unfold socket_close. simpl. rewrite IH by done. simpl. by rewrite <- app_assoc.
    + by rewrite IH.
Qed.

(** Discovery before its socket closes: nothing is registered or thrown,
    and each reply has become one record, in arrival order, duplicates
    kept.  A call of the ['listening'] handler that throws is uncaught. *)
Theorem discovery_collecting_state ug accs br (pre : list dgram_event) (code : string) :
  Forall collecting pre ->
  discoverDevices ug accs br pre =
  {| devices := collected pre; sock_open := true; performed := []; uncaught := [] |} /\
  discoverDevices ug accs br (pre ++ [DListenThrow code]) =
  {| devices := collected pre; sock_open := true; performed := [];
     uncaught := [SocketError code] |}.
Proof.
  intros Hpre. unfold discoverDevices. rewrite fold_left_app.
  by rewrite (collecting_run ug accs br pre disc_init Hpre eq_refl).
Qed.

Lemma discovery_collecting_state_witness :
  Forall collecting [DListening true; DMessage "id: 0x1"; DMessage "id: 0x1"] /\
  uncaught (discoverDevices hap_uuid [] []
              ([DListening true; DMessage "id: 0x1"; DMessage "id: 0x1"] ++ [DListenThrow "ENODEV"]))
  = [SocketError "ENODEV"].
Proof.
  split; [repeat constructor|].
  rewrite (proj2 (discovery_collecting_state hap_uuid [] []
                    [DListening true; DMessage "id: 0x1"; DMessage "id: 0x1"] "ENODEV"
                    ltac:(repeat constructor))).
  reflexivity.
Defined.

(** The first close, by the timer or by the 'error' handler, reconciles
    the records collected so far, once; afterwards replies and errors are
    ignored, and every later run of the timer's [socket.close()] throws
    ERR_SOCKET_DGRAM_NOT_RUNNING, which nothing catches. *)
Theorem discovery_after_close ug accs br (pre rest : list dgram_event) (ev : dgram_event) :
  Forall collecting pre -> (ev = DTimer \/ exists code, ev = DError code) ->
  discoverDevices ug accs br (pre ++ ev :: rest) =
  {| devices := collected pre; sock_open := false;
     performed := (close_loop ug accs br (collected pre)).1;
     uncaught := option_list (close_loop ug accs br (collected pre)).2
                 ++ replicate (timer_events rest) ERR_SOCKET_DGRAM_NOT_RUNNING |}.
Proof.
  intros Hpre Hev. unfold discoverDevices. rewrite fold_left_app.
  rewrite (collecting_run ug accs br pre disc_init Hpre eq_refl). simpl.
  assert (Hstep : disc_step ug accs br
            {| devices := collected pre; sock_open := true; performed := []; uncaught := [] |} ev =
          socket_close ug accs br
            {| devices := collected pre; sock_open := true; performed := []; uncaught := [] |}).
  { destruct Hev as [->|[code ->]]; reflexivity. }
  rewrite Hstep. unfold socket_close. simpl.
  destruct (close_loop ug accs br (collected pre)) as [acts err]. simpl.
  by rewrite closed_run.
Qed.

Lemma discovery_after_close_witness :
  Forall collecting [DListening true; DMessage "id: 0x1"] /\
  (DError "EADDRINUSE" = DTimer \/ exists code, DError "EADDRINUSE" = DError code) /\
  discoverDevices hap_uuid [] [] ([DListening true; DMessage "id: 0x1"] ++ DError "EADDRINUSE"
                                 :: [DMessage "id: 0x2"; DTimer]) =
  {| devices := collected [DListening true; DMessage "id: 0x1"]; sock_open := false;
     performed := (close_loop hap_uuid [] [] (collected [DListening true; DMessage "id: 0x1"])).1;
     uncaught := option_list (close_loop hap_uuid [] [] (collected [DListening true; DMessage "id: 0x1"])).2
                 ++ replicate (timer_events [DMessage "id: 0x2"; DTimer]) ERR_SOCKET_DGRAM_NOT_RUNNING |}.
Proof.
  split; [repeat constructor|]. split; [right; eexists; reflexivity|].
  apply discovery_after_close; [repeat constructor|right; eexists; reflexivity].
Defined.

Lemma setOn_events_destroys v (tr : list (nat * tcp_event)) (l0 : list sock_op) :
  destroys (setOn_events v l0 tr).1 = (destroys l0 + data_events tr)%nat.
Proof.
  revert l0. induction tr as [|[t ev] tr IH]; intros l0; simpl; [lia|].
  destruct ev; simpl; rewrite ?IH; rewrite ?destroys_app; simpl; lia.
Qed.

(** [setOn] destroys its socket once per reply chunk and never otherwise:
    a bulb that accepts the connection and does not answer leaves the
    socket open; a call that fails synchronously destroys nothing.  An
    ['error'] event ends the process, so only the chunks before the first
    one count. *)
Theorem setOn_destroys_per_reply (pa : option string -> bool) (loc : option string) (v : bool)
    (tr : list (nat * tcp_event)) :
  destroys (ops (setOn pa loc v tr)) = if sync_ok pa loc then data_events tr else O.
Proof.
  unfold setOn, sync_ok. destruct (split_location loc) as [[ip port]|e]; [|done].
  destruct (pa port); [|done].
  pose proof (setOn_events_destroys v tr [SockCreate; SockConnect port ip]) as H.
  destruct (setOn_events v [SockCreate; SockConnect port ip] tr). simpl in *. by rewrite H.
Qed.

(** [getOn] destroys its socket exactly once, after its wait, when no
    event delivered before the 1000 ms mark throws; when one does (an
    ['error'] event, an unparsable or [null] reply), the process ends
    before the destroy.  When the synchronous part fails it destroys
    nothing, also when the socket was already created. *)
Theorem getOn_socket_released (parse : string -> option jvalue) (pa : option string -> bool)
    (loc : option string) (tr : list (nat * tcp_event)) :
  destroys (ops (getOn parse pa loc tr)) =
  if sync_ok pa loc then
    match (until_throw parse (delivered_events tr)).2 with None => 1%nat | Some _ => O end
  else O.
Proof.
  rewrite getOn_spec. unfold sync_ok.
  destruct (split_location loc) as [[ip port]|e]; [|done].
  destruct (pa port); [|done].
  destruct (until_throw parse (delivered_events tr)) as [seen [e|]]; simpl;
    rewrite ?destroys_app, destroys_writes; done.
Qed.

Lemma lower_char_idem (c : ascii) : js_lower_char (js_lower_char c) = js_lower_char c.
Proof. destruct c as [[] [] [] [] [] [] [] []]; vm_compute; reflexivity. Qed.

Lemma lower_char_space (c : ascii) : js_is_space (js_lower_char c) = js_is_space c.
Proof. destruct c as [[] [] [] [] [] [] [] []]; vm_compute; reflexivity. Qed.

Lemma toLowerCase_idem (s : string) : js_toLowerCase (js_toLowerCase s) = js_toLowerCase s.
Proof.
  unfold js_toLowerCase. rewrite list_ascii_of_string_of_list_ascii, map_map.
  f_equal. apply map_ext, lower_char_idem.
Qed.

Lemma drop_space_map_lower (l : list ascii) :
  drop_space (map js_lower_char l) = map js_lower_char (drop_space l).
Proof.
  induction l as [|c l IH]; simpl; [done|].
  rewrite lower_char_space. by destruct (js_is_space c).
Qed.

Lemma trim_toLowerCase (s : string) : js_trim (js_toLowerCase s) = js_toLowerCase (js_trim s).
Proof.
  unfold js_trim, js_toLowerCase. rewrite !list_ascii_of_string_of_list_ascii.
  by rewrite drop_space_map_lower, <- map_rev, drop_space_map_lower, <- map_rev.
Qed.

Lemma drop_space_head (l : list ascii) : head_not_space (drop_space l) = true.
Proof.
  induction l as [|c l IH]; simpl; [done|].
  destruct (js_is_space c) eqn:E; [done|]. simpl. by rewrite E.
Qed.

Lemma drop_space_fixed (l : list ascii) : head_not_space l = true -> drop_space l = l.
Proof. destruct l as [|c l]; simpl; [done|]. intros H. by destruct (js_is_space c). Qed.

Lemma drop_space_app_ns (l r : list ascii) (x : ascii) :
  js_is_space x = false -> drop_space (l ++ x :: r)%list = (drop_space l ++ x :: r)%list.
Proof.
  intros Hx. induction l as [|c l IH]; simpl; [by rewrite Hx|].
  by destruct (js_is_space c).
Qed.

Lemma head_rev_drop_rev (l : list ascii) :
  head_not_space l = true -> head_not_space (rev (drop_space (rev l))) = true.
Proof.
  destruct l as [|x l]; simpl; [done|]. intros Hx. apply negb_true_iff in Hx.
  rewrite drop_space_app_ns by done. rewrite rev_app_distr. simpl. by rewrite Hx.
Qed.

Lemma trim_idem (s : string) : js_trim (js_trim s) = js_trim s.
Proof.
  unfold js_trim at 1 3. unfold js_trim. rewrite list_ascii_of_string_of_list_ascii.
  set (D := drop_space (list_ascii_of_string s)).
  assert (HD : head_not_space D = true) by apply drop_space_head.
  rewrite (drop_space_fixed _ (head_rev_drop_rev _ HD)).
  rewrite rev_involutive.
  rewrite (drop_space_fixed (drop_space (rev D))) by apply drop_space_head.
  done.
Qed.

Lemma parse_line_normal (m : gmap string string) (l : string) :
  map_Forall (fun k v => js_trim k = k /\ js_toLowerCase k = k /\ js_trim v = v) m ->
  map_Forall (fun k v => js_trim k = k /\ js_toLowerCase k = k /\ js_trim v = v) (parse_line m l).
Proof.
  intros Hm. unfold parse_line. destruct (js_indexOf ":" l) as [i|]; [|done].
  unfold obj_set. case_match; [done|].
  apply map_Forall_insert_2; [|done].
  split; [|split].
  - by rewrite trim_toLowerCase, trim_idem.
  - apply toLowerCase_idem.
  - apply trim_idem.
Qed.

(** Every record [parseScript] returns is in normal form: each key is
    trimmed and lower-case, each value trimmed, whatever the reply. *)
Theorem parseScript_normal_form (script k v : string) :
  parseScript script !! k = Some v ->
  js_trim k = k /\ js_toLowerCase k = k /\ js_trim v = v.
Proof.
  assert (H : map_Forall (fun k v => js_trim k = k /\ js_toLowerCase k = k /\ js_trim v = v)
                (parseScript script)).
  { unfold parseScript.
    generalize (map_Forall_empty (M := gmap string) (A := string)
                  (fun k v => js_trim k = k /\ js_toLowerCase k = k /\ js_trim v = v)).
    generalize (∅ : gmap string string).
    induction (js_split (String "010"%char EmptyString) script) as [|l ls IH];
      intros m Hm; simpl; [done|].
    apply IH, parse_line_normal, Hm. }
  intros Hk. exact (H k v Hk).
Qed.

Lemma parseScript_normal_form_witness :
  parseScript ("ID :  0x1 " ++ crlf) !! "id" = Some "0x1" /\
  js_trim "id" = "id" /\ js_toLowerCase "id" = "id" /\ js_trim "0x1" = "0x1".
Proof.
  split; [vm_compute; reflexivity|].
  apply (parseScript_normal_form ("ID :  0x1 " ++ crlf)). vm_compute. reflexivity.
Defined.

(* ------------------------------------------------------------------ *)
(** ** Sample runs *)

Example split_ex : js_split "//" "yeelight://10.0.0.5:55443" = ["yeelight:"; "10.0.0.5:55443"].
Proof. reflexivity. Qed.

Example split_ex2 : js_split ":" "a::b:" = ["a"; ""; "b"; ""].
Proof. reflexivity. Qed.

Example trim_ex : js_trim (String "009"%char " Id  ") = "Id".
Proof. reflexivity. Qed.

Example parse_ex :
  parseScript ("HTTP/1.1 200 OK" ++ String "013"%char (String "010"%char
               ("ID: 0x1" ++ String "013"%char (String "010"%char "Location: yeelight://1.2.3.4:55443"))))
  = <["location" := "yeelight://1.2.3.4:55443"]> (<["id" := "0x1"]> ∅).
Proof. vm_compute. reflexivity. Qed.

Example disc_ex :
  performed (discoverDevices hap_uuid [] []
    [DListening true; DMessage ("id: 0x1" ++ crlf ++ "model: color"); DTimer])
  = [Create (Some "color") "uuid:0x1" (<["model" := "color"]> (<["id" := "0x1"]> ∅))].
Proof. vm_compute. reflexivity. Qed.
